(** * Hacker Stories (inline handlers): the list container and its persisted search term

    A shallow embedding of [App.jsx]: the story collection, the search
    filter, the removal handler, the [useStorageState] custom hook with
    its write-back effect, and the row's Dismiss trigger.  The two copies
    of the component that the repository holds differ in one place only,
    the parameter list of [Item]; both are embedded. *)

From Stdlib Require Import ZArith Ascii String List Bool Lia.
From stdpp Require Import base option list strings gmap.
Import ListNotations.

Local Open Scope Z_scope.
Local Open Scope string_scope.
Local Open Scope list_scope.

(** ** Data model *)

(** One story, as the object literals of [initialStories] have it. *)
Record Item : Type := mkItem {
  title : string;
  url : string;
  author : string;
  num_comments : Z;
  points : Z;
  objectID : Z
}.

Definition initialStories : list Item :=
  [ {| title := "React";
       url := "https://reactjs.org/";
       author := "Jordan Walke";
       num_comments := 3;
       points := 4;
       objectID := 0 |};
    {| title := "Redux";
       url := "https://redux.js.org/";
       author := "Dan Abramov, Andrew Clark";
       num_comments := 2;
       points := 5;
       objectID := 1 |} ].

(** ** The string built-ins the component calls *)

Module JSString.

(** [s.includes(searchString)]: some position of [s] starts an
    occurrence of [searchString]. *)
Fixpoint includes (s searchString : string) : bool :=
  String.prefix searchString s ||
  match s with
  | EmptyString => false
  | String _ s' => includes s' searchString
  end.

(** The substring relation that [includes] decides. *)
Definition substring_of (t s : string) : Prop :=
  exists pre post : string, s = pre +:+ t +:+ post.

(** [toLowerCase] on the ASCII range: the letters A to Z move to a to z,
    every other character stays. *)
Definition lower_ascii (c : ascii) : ascii :=
  let n := nat_of_ascii c in
  if (Nat.leb 65 n && Nat.leb n 90)%bool then ascii_of_nat (n + 32) else c.

Fixpoint toLowerCase_ascii (s : string) : string :=
  match s with
  | EmptyString => EmptyString
  | String c s' => String (lower_ascii c) (toLowerCase_ascii s')
  end.

End JSString.

(** ** The derived view and the removal filter *)

Section Stories.

(** [String.prototype.toLowerCase] of the host; the statements below hold
    for whatever case mapping the host implements. *)
Variable toLowerCase : string -> string.

(** The callback of [searchedStories]. *)
Definition matches (searchTerm : string) (story : Item) : bool :=
  JSString.includes (toLowerCase (title story)) (toLowerCase searchTerm).

(** [const searchedStories = stories.filter((story) =>
      story.title.toLowerCase().includes(searchTerm.toLowerCase()))] *)
Definition searchedStories (stories : list Item) (searchTerm : string) : list Item :=
  List.filter (matches searchTerm) stories.

End Stories.

(** [stories.filter((story) => item.objectID !== story.objectID)], the
    [newStories] of [handleRemoveStory]. *)
Definition newStories (stories : list Item) (item : Item) : list Item :=
  List.filter (fun story => negb (objectID item =? objectID story)%Z) stories.

(** How many stories carry a given identifier. *)
Definition count_id (stories : list Item) (i : Z) : nat :=
  length (List.filter (fun story => (i =? objectID story)%Z) stories).

(** ** The browser's key-value store *)

(** [localStorage]: the entries, and the trace of [setItem] calls made so
    far (the observable by which a write-back is seen to fire). *)
Record Storage : Type := mkStorage {
  entries : gmap string string;
  setItem_calls : list (string * string)
}.

(** [localStorage.getItem(k)]; [None] is JavaScript's [null]. *)
Definition getItem (k : string) (ls : Storage) : option string :=
  entries ls !! k.

(** [localStorage.setItem(k, v)]. *)
Definition setItem (k v : string) (ls : Storage) : Storage :=
  {| entries := <[k := v]> (entries ls);
     setItem_calls := setItem_calls ls ++ [(k, v)] |}.

(** A string is falsy exactly when it is empty. *)
Definition truthy (s : string) : bool :=
  match s with
  | EmptyString => false
  | String _ _ => true
  end.

(** [x || d] for [x] a string or [null]. *)
Definition js_or (x : option string) (d : string) : string :=
  match x with
  | Some s => if truthy s then s else d
  | None => d
  end.

(** ** Hooks *)

(** What the renderer keeps for one instance of [useStorageState]: the
    [useState] cell, the dependency array the effect last ran with, the
    effects queued by the render in progress, and the store the render
    reads and the effects write. *)
Record Renderer : Type := mkRenderer {
  stateCell : option string;
  depsCell : option (list string);
  pendingEffects : list (Storage -> Storage);
  localStorage : Storage
}.

(** The body of a function component: a computation over the renderer. *)
Definition Hook (A : Type) : Type := Renderer -> A * Renderer.

#[export] Instance Hook_ret : MRet Hook := fun A a r => (a, r).
#[export] Instance Hook_bind : MBind Hook :=
  fun A B f c r => let '(a, r') := c r in f a r'.

(** Reading the store inside a render. *)
Definition readItem (k : string) : Hook (option string) :=
  fun r => (getItem k (localStorage r), r).

(** [React.useState(initial)]: the argument is used on the first render
    only; afterwards the cell is returned. *)
Definition useState (initial : string) : Hook string :=
  fun r =>
    match stateCell r with
    | Some v => (v, r)
    | None =>
        (initial,
         {| stateCell := Some initial;
            depsCell := depsCell r;
            pendingEffects := pendingEffects r;
            localStorage := localStorage r |})
    end.

(** [React.useEffect(effect, deps)]: the effect is queued on the first
    render and whenever an entry of [deps] differs from the previous
    render's. *)
Definition useEffect (effect : Storage -> Storage) (deps : list string) : Hook unit :=
  fun r =>
    if decide (depsCell r = Some deps) then (tt, r)
    else
      (tt,
       {| stateCell := stateCell r;
          depsCell := Some deps;
          pendingEffects := pendingEffects r ++ [effect];
          localStorage := localStorage r |}).

(** [useStorageState]: the initial read asks for the literal ['key']. *)
Definition useStorageState (key initialState : string) : Hook string :=
  stored ← readItem "key";
  value ← useState (js_or stored initialState);
  _ ← useEffect (setItem key value) [value; key];
  mret value.

(** The state updater returned next to the value. *)
Definition setValue (v : string) (r : Renderer) : Renderer :=
  {| stateCell := Some v;
     depsCell := depsCell r;
     pendingEffects := pendingEffects r;
     localStorage := localStorage r |}.

(** After the render, the queued effects run in order. *)
Definition commit (r : Renderer) : Renderer :=
  {| stateCell := stateCell r;
     depsCell := depsCell r;
     pendingEffects := [];
     localStorage := fold_left (fun ls eff => eff ls) (pendingEffects r) (localStorage r) |}.

(** A renderer that has not rendered yet. *)
Definition unmounted (ls : Storage) : Renderer :=
  {| stateCell := None; depsCell := None; pendingEffects := []; localStorage := ls |}.

(** One render of a component whose body is [useStorageState key initialState],
    followed by its commit: the value handed back and the renderer after. *)
Definition render (key initialState : string) (r : Renderer) : string * Renderer :=
  let '(value, r') := useStorageState key initialState r in (value, commit r').

(** The value a render hands back: the cell once it is set, and before
    that the entry stored under ['key'], or the default. *)
Definition rendered_value (initialState : string) (r : Renderer) : string :=
  match stateCell r with
  | Some v => v
  | None => js_or (getItem "key" (localStorage r)) initialState
  end.

(** ** A component holding one persisted cell *)

Module Cell.

(** The mounted cell: the props of the last render, the value it
    returned, and the renderer. *)
Record t : Type := mk {
  key : string;
  initialState : string;
  value : string;
  renderer : Renderer
}.

(** [create(k, d)] on a given store: the first render. *)
Definition create (k d : string) (ls : Storage) : t :=
  let '(v, r) := render k d (unmounted ls) in
  {| key := k; initialState := d; value := v; renderer := r |}.

(** What can happen to a mounted cell: the setter is called, or the owner
    renders it again with other arguments. *)
Inductive event : Type :=
| SetValue (v : string)
| Rerender (k d : string).

Definition step (c : t) (e : event) : t :=
  match e with
  | SetValue v =>
      let '(v', r) := render (key c) (initialState c) (setValue v (renderer c)) in
      {| key := key c; initialState := initialState c; value := v'; renderer := r |}
  | Rerender k d =>
      let '(v', r) := render k d (renderer c) in
      {| key := k; initialState := d; value := v'; renderer := r |}
  end.

Definition run (c : t) (es : list event) : t := fold_left step es c.

Definition store (c : t) : Storage := localStorage (renderer c).

(** The cell created with [k] and [d] on the store [ls], after the
    events [es]. *)
Definition reached (k d : string) (ls : Storage) (es : list event) : t :=
  run (create k d ls) es.

(** What holds of a mounted cell between two events. *)
Record wf (c : t) : Prop := mk_wf {
  wf_renderer :
    renderer c =
      {| stateCell := Some (value c);
         depsCell := Some [value c; key c];
         pendingEffects := [];
         localStorage := store c |};
  wf_store : getItem (key c) (store c) = Some (value c)
}.

End Cell.

(** ** The container *)

Module App.

(** The state of [App]: the [stories] cell of [React.useState(initialStories)]
    and the persisted search term, [useStorageState('search', 'React')]. *)
Record t : Type := mk {
  stories : list Item;
  search : Cell.t
}.

Definition searchTerm (a : t) : string := Cell.value (search a).

Definition store (a : t) : Storage := Cell.store (search a).

(** The first render on a given store. *)
Definition mount (ls : Storage) : t :=
  {| stories := initialStories; search := Cell.create "search" "React" ls |}.

(** [handleRemoveStory]: [setStories(newStories)], after which [App]
    renders again. *)
Definition handleRemoveStory (item : Item) (a : t) : t :=
  {| stories := newStories (stories a) item;
     search := Cell.step (search a) (Cell.Rerender "search" "React") |}.

(** [handleSearch]: [setSearchTerm(event.target.value)]; [text] is the
    value of the event's target. *)
Definition handleSearch (text : string) (a : t) : t :=
  {| stories := stories a;
     search := Cell.step (search a) (Cell.SetValue text) |}.

(** The list handed to [List]. *)
Definition view (toLowerCase : string -> string) (a : t) : list Item :=
  searchedStories toLowerCase (stories a) (searchTerm a).

Inductive event : Type :=
| Remove (item : Item)
| Search (text : string).

Definition step (a : t) (e : event) : t :=
  match e with
  | Remove item => handleRemoveStory item a
  | Search text => handleSearch text a
  end.

Definition run (a : t) (es : list event) : t := fold_left step es a.

(** The container mounted on the store [ls], after the events [es]. *)
Definition reached (ls : Storage) (es : list event) : t := run (mount ls) es.

End App.

(** ** The rows and their Dismiss trigger *)

Module Row.

Inductive error : Type :=
| ReferenceError (name : string)
| TypeError (what : string).

Inductive completion (A : Type) : Type :=
| Normal (a : A)
| Throw (e : error).
Arguments Normal {A} a.
Arguments Throw {A} e.

(** What an identifier can stand for inside [Item]. *)
Inductive binding : Type :=
| Story (item : Item)
| Callback (f : Item -> App.t -> App.t)
| TopLevel.

(** The props object [List] passes to one row. *)
Definition props : Type := list (string * binding).

(** [list.map((item) => <Item key=... item={item} onRemoveItem={onRemoveItem} />)] *)
Definition List (list : Datatypes.list Item) (onRemoveItem : Item -> App.t -> App.t)
  : Datatypes.list props :=
  map (fun item => [("item", Story item); ("onRemoveItem", Callback onRemoveItem)]) list.

(** The names the module declares at top level. *)
Definition moduleScope : list (string * binding) :=
  map (fun name => (name, TopLevel))
      ["React"; "initialStories"; "useStorageState"; "App"; "InputWithLabel"; "List"; "Item"].

Fixpoint resolve (name : string) (scope : list (string * binding)) : option binding :=
  match scope with
  | [] => None
  | (n, b) :: scope' => if String.eqb n name then Some b else resolve name scope'
  end.

(** The parameter pattern [({ n1, n2, ... })] binds the listed names, each
    to the prop of that name. *)
Definition destructure (names : list string) (p : props) : list (string * binding) :=
  omap (fun n => match resolve n p with Some b => Some (n, b) | None => None end) names.

(** [() => onRemoveItem(item)], run in the scope of an [Item] whose
    parameter pattern lists [params].  The callback reads [objectID] of its
    argument, so it is applied to a story. *)
Definition onClick (params : list string) (p : props) (a : App.t) : completion App.t :=
  let scope := destructure params p ++ moduleScope in
  match resolve "onRemoveItem" scope with
  | None => Throw (ReferenceError "onRemoveItem")
  | Some (Callback f) =>
      match resolve "item" scope with
      | None => Throw (ReferenceError "item")
      | Some (Story item) => Normal (f item a)
      | Some _ => Throw (TypeError "item is not a story")
      end
  | Some _ => Throw (TypeError "onRemoveItem is not a function")
  end.

(** [const Item = ({item}) => ...] of src/App.jsx. *)
Definition Item_App : props -> App.t -> completion App.t := onClick ["item"].

(** [const Item = ({item, onRemoveItem}) => ...] of the second copy. *)
Definition Item_part_000 : props -> App.t -> completion App.t :=
  onClick ["item"; "onRemoveItem"].

End Row.

(** ** The search input and its focus effect *)

Module InputWithLabel.

(** The props the component reads; [type] is optional and defaults to
    ['text']. *)
Record props : Type := mkProps {
  id : string;
  value : string;
  type : option string;
  isFocused : bool
}.

(** What the renderer keeps for one instance: whether [inputRef.current]
    holds the input element, the dependency array the effect last ran
    with, and the number of [focus()] calls the element has received. *)
Record t : Type := mk {
  inputRef_current : bool;
  effectDeps : option (list bool);
  focus_calls : nat
}.

Definition unmounted : t :=
  {| inputRef_current := false; effectDeps := None; focus_calls := 0 |}.

(** [if (isFocused && inputRef.current) { inputRef.current.focus(); }] *)
Definition effect (isFocused : bool) (s : t) : t :=
  if (isFocused && inputRef_current s)%bool
  then {| inputRef_current := inputRef_current s;
          effectDeps := effectDeps s;
          focus_calls := S (focus_calls s) |}
  else s.

(** One render and its commit: the input element is attached to the ref,
    then the effect runs when [[isFocused]] differs from the array of the
    previous render (always on the first). *)
Definition render (p : props) (s : t) : t :=
  if decide (effectDeps s = Some [isFocused p])
  then {| inputRef_current := true;
          effectDeps := effectDeps s;
          focus_calls := focus_calls s |}
  else effect (isFocused p)
         {| inputRef_current := true;
            effectDeps := Some [isFocused p];
            focus_calls := focus_calls s |}.

Definition mount (p : props) : t := render p unmounted.

(** The instance after the first render with [p] and the renders [ps]. *)
Definition reached (p : props) (ps : list props) : t :=
  fold_left (fun s q => render q s) ps (mount p).

(** The [type] attribute of the rendered input. *)
Definition input_type (p : props) : string := default "text" (type p).

(** The renders that call [focus()]: those with [isFocused] set, when it
    was not set on the render before or there was none. *)
Fixpoint rising (prev : bool) (flags : list bool) : nat :=
  match flags with
  | [] => 0%nat
  | b :: flags' => ((if (b && negb prev)%bool then 1 else 0) + rising b flags')%nat
  end.

End InputWithLabel.

(** ** The page as the user drives it *)

Module UI.

(** The user types in the search input, or activates the Dismiss button
    of the row at a position of the displayed list. *)
Inductive event : Type :=
| Change (text : string)
| Dismiss (row : nat).

Section Page.

Variable toLowerCase : string -> string.

(** The [Item] of the copy at hand: [Row.Item_App] or [Row.Item_part_000]. *)
Variable Item_ : Row.props -> App.t -> Row.completion App.t.

(** [<List list={searchedStories} onRemoveItem={handleRemoveStory} />] *)
Definition rows (a : App.t) : list Row.props :=
  Row.List (App.view toLowerCase a) App.handleRemoveStory.

(** [key={item.objectID}] of each row. *)
Definition keys (a : App.t) : list Z := map objectID (App.view toLowerCase a).

(** A handler that throws before it reaches a state updater leaves the
    state as it is. *)
Definition step (a : App.t) (e : event) : App.t :=
  match e with
  | Change text => App.handleSearch text a
  | Dismiss i =>
      match rows a !! i with
      | Some p =>
          match Item_ p a with
          | Row.Normal a' => a'
          | Row.Throw _ => a
          end
      | None => a
      end
  end.

Definition run (a : App.t) (es : list event) : App.t := fold_left step es a.

End Page.

End UI.

(** The keys of the re-renders among the events of a cell. *)
Definition rerender_keys (es : list Cell.event) : list string :=
  omap (fun e => match e with
                 | Cell.Rerender k _ => Some k
                 | Cell.SetValue _ => None
                 end) es.

(** * Properties *)

(** ** Strings *)

Lemma append_nil (s : string) : "" +:+ s = s.
Proof. reflexivity. Qed.

Lemma append_cons (c : ascii) (s t : string) : String c s +:+ t = String c (s +:+ t).
Proof. reflexivity. Qed.

Lemma prefix_app (t s : string) :
  String.prefix t s = true <-> exists post : string, s = t +:+ post.
Proof.
  revert s; induction t as [|a t IH]; intros s.
  - split; [intros _; exists s; reflexivity | intros _; destruct s; reflexivity].
  - destruct s as [|b s]; simpl.
    + split; [discriminate | intros [post H]; discriminate].
    + destruct (ascii_dec a b) as [->|Hab].
      * rewrite IH. split; intros [post H]; exists post;
          rewrite append_cons in *; congruence.
      * split; [discriminate | intros [post H]; rewrite append_cons in H; congruence].
Qed.

Lemma includes_nil (t : string) :
  JSString.includes "" t = String.prefix t "" || false.
Proof. reflexivity. Qed.

Lemma includes_cons (c : ascii) (s t : string) :
  JSString.includes (String c s) t = String.prefix t (String c s) || JSString.includes s t.
Proof. reflexivity. Qed.

Lemma includes_substring_of (s t : string) :
  JSString.includes s t = true <-> JSString.substring_of t s.
Proof.
  unfold JSString.substring_of.
  induction s as [|c s IH];
    [rewrite includes_nil | rewrite includes_cons]; rewrite orb_true_iff, prefix_app.
  - split.
    + intros [[post H]|H]; [|discriminate]. exists "", post. exact H.
    + intros ([|a pre] & post & H); [left; exists post; exact H | discriminate].
  - rewrite IH. split.
    + intros [[post H]|(pre & post & H)].
      * exists "", post. exact H.
      * exists (String c pre), post. rewrite append_cons. congruence.
    + intros ([|a pre] & post & H).
      * left. exists post. exact H.
      * right. exists pre, post. rewrite append_cons in H. congruence.
Qed.

Lemma includes_empty (s : string) : JSString.includes s "" = true.
Proof. apply includes_substring_of. exists "", s. reflexivity. Qed.

(** ** [Array.prototype.filter] *)

Section Filter.

Context {A : Type} (p : A -> bool).

Lemma filter_sublist (l : list A) : List.filter p l `sublist_of` l.
Proof.
  induction l as [|x l IH]; simpl; [constructor|].
  destruct (p x); constructor; exact IH.
Qed.

Lemma filter_elem_of (l : list A) (x : A) :
  x ∈ List.filter p l <-> x ∈ l /\ p x = true.
Proof.
  induction l as [|y l IH]; simpl.
  - rewrite elem_of_nil. tauto.
  - destruct (p y) eqn:Hy; rewrite ?elem_of_cons, IH; split.
    + intros [->|[? ?]]; auto.
    + intros [[->|?] ?]; auto.
    + intros [? ?]; auto.
    + intros [[->|?] ?]; [congruence | auto].
Qed.

(** Every subsequence whose elements all pass the test is a subsequence
    of the filtered list. *)
Lemma filter_greatest (l k : list A) :
  k `sublist_of` l -> (forall x, x ∈ k -> p x = true) -> k `sublist_of` List.filter p l.
Proof.
  induction 1 as [|x k l Hs IH|x k l Hs IH]; intros Hk; simpl.
  - constructor.
  - rewrite (Hk x) by (apply elem_of_cons; auto).
    constructor. apply IH. intros y Hy. apply Hk, elem_of_cons; auto.
  - destruct (p x); [constructor|]; apply IH, Hk.
Qed.

Lemma filter_all (l : list A) :
  (forall x, x ∈ l -> p x = true) -> List.filter p l = l.
Proof.
  induction l as [|x l IH]; intros H; simpl; [reflexivity|].
  rewrite (H x) by (apply elem_of_cons; auto).
  f_equal. apply IH. intros y Hy. apply H, elem_of_cons; auto.
Qed.

Lemma filter_filter_same (l : list A) :
  List.filter p (List.filter p l) = List.filter p l.
Proof.
  apply filter_all. intros x Hx. apply filter_elem_of in Hx. tauto.
Qed.

Lemma filter_length_split (l : list A) :
  length l = (length (List.filter p l) + length (List.filter (fun x => negb (p x)) l))%nat.
Proof.
  induction l as [|x l IH]; simpl; [reflexivity|].
  destruct (p x); simpl; lia.
Qed.

(** A list is the filtered list as soon as it is a subsequence that
    passes the test and lies above every such subsequence. *)
Lemma filter_unique (l k : list A) :
  k `sublist_of` l ->
  (forall x, x ∈ k -> p x = true) ->
  (forall k', k' `sublist_of` l -> (forall x, x ∈ k' -> p x = true) -> k' `sublist_of` k) ->
  k = List.filter p l.
Proof.
  intros Hs Hp Hmax.
  apply (anti_symm sublist).
  - apply filter_greatest; assumption.
  - apply Hmax; [apply filter_sublist|].
    intros x Hx. apply filter_elem_of in Hx. tauto.
Qed.

End Filter.

(** ** The derived view *)

Lemma matches_substring_of (toLowerCase : string -> string) (f : string) (x : Item) :
  matches toLowerCase f x = true <->
  JSString.substring_of (toLowerCase f) (toLowerCase (title x)).
Proof. unfold matches. apply includes_substring_of. Qed.

(** C1: for every collection [L] and filter text [f], the derived view is
    exactly the order-preserving subsequence of [L] made of the items whose
    lower-cased title contains the lower-cased [f] as a substring: it is a
    subsequence of [L], its members are the matching members of [L], and
    it is the one subsequence of matching items that contains every other. *)
Theorem searchedStories_exact (toLowerCase : string -> string) (L : list Item) (f : string) :
  searchedStories toLowerCase L f `sublist_of` L
  /\ (forall x, x ∈ searchedStories toLowerCase L f <->
        x ∈ L /\ JSString.substring_of (toLowerCase f) (toLowerCase (title x)))
  /\ (forall K, K = searchedStories toLowerCase L f <->
        K `sublist_of` L
        /\ (forall x, x ∈ K ->
              JSString.substring_of (toLowerCase f) (toLowerCase (title x)))
        /\ (forall K', K' `sublist_of` L ->
              (forall x, x ∈ K' ->
                 JSString.substring_of (toLowerCase f) (toLowerCase (title x))) ->
              K' `sublist_of` K)).
Proof.
  unfold searchedStories.
  assert (Hmem : forall x, x ∈ List.filter (matches toLowerCase f) L <->
            x ∈ L /\ JSString.substring_of (toLowerCase f) (toLowerCase (title x))).
  { intros x. rewrite filter_elem_of, matches_substring_of. reflexivity. }
  split; [apply filter_sublist|]. split; [exact Hmem|].
  intros K; split.
  - intros ->. split; [apply filter_sublist|]. split.
    + intros x Hx. apply Hmem in Hx. tauto.
    + intros K' Hs Hm. apply filter_greatest; [exact Hs|].
      intros x Hx. apply matches_substring_of, Hm, Hx.
  - intros (Hs & Hm & Hmax). apply filter_unique; [exact Hs| |].
    + intros x Hx. apply matches_substring_of, Hm, Hx.
    + intros K' Hs' Hm'. apply Hmax; [exact Hs'|].
      intros x Hx. apply matches_substring_of, Hm', Hx.
Qed.

(** C7: under the empty filter text the derived view is the collection
    itself, for every case mapping that sends the empty string to itself. *)
Theorem searchedStories_empty_filter (toLowerCase : string -> string) (L : list Item) :
  toLowerCase "" = "" -> searchedStories toLowerCase L "" = L.
Proof.
  intros Hlow. unfold searchedStories. apply filter_all.
  intros x _. unfold matches. rewrite Hlow. apply includes_empty.
Qed.

Lemma searchedStories_empty_filter_witness :
  JSString.toLowerCase_ascii "" = ""
  /\ searchedStories JSString.toLowerCase_ascii initialStories "" = initialStories.
Proof.
  split; [reflexivity|].
  apply (searchedStories_empty_filter JSString.toLowerCase_ascii initialStories).
  reflexivity.
Defined.

(** ** Removal *)

Lemma newStories_keep (x y : Item) :
  negb (objectID x =? objectID y)%Z = true <-> objectID y <> objectID x.
Proof. rewrite negb_true_iff, Z.eqb_neq. split; intros H E; apply H; congruence. Qed.

(** C2: [handleRemoveStory] removes every story whose [objectID] is that
    of the argument and nothing else, keeps the remaining stories in their
    order, and leaves the collection as it is when no story has that
    [objectID]. *)
Theorem handleRemoveStory_removes (a : App.t) (x : Item) :
  (forall y, y ∈ App.stories (App.handleRemoveStory x a) <->
     y ∈ App.stories a /\ objectID y <> objectID x)
  /\ App.stories (App.handleRemoveStory x a) `sublist_of` App.stories a
  /\ (forall K, K `sublist_of` App.stories a ->
        (forall y, y ∈ K -> objectID y <> objectID x) ->
        K `sublist_of` App.stories (App.handleRemoveStory x a))
  /\ ((forall y, y ∈ App.stories a -> objectID y <> objectID x) ->
      App.stories (App.handleRemoveStory x a) = App.stories a).
Proof.
  destruct a as [L c]; simpl. unfold newStories.
  split; [|split; [|split]].
  - intros y. rewrite filter_elem_of, newStories_keep. reflexivity.
  - apply filter_sublist.
  - intros K Hs HK. apply filter_greatest; [exact Hs|].
    intros y Hy. apply newStories_keep, HK, Hy.
  - intros HL. apply filter_all. intros y Hy. apply newStories_keep, HL, Hy.
Qed.

(** C6: the collection after removal is shorter by the number of stories
    that carried the identifier, and removing twice is removing once. *)
Theorem newStories_length_idempotent (L : list Item) (x : Item) :
  length (newStories L x) = (length L - count_id L (objectID x))%nat
  /\ length L = (length (newStories L x) + count_id L (objectID x))%nat
  /\ newStories (newStories L x) x = newStories L x.
Proof.
  assert (Hlen : length L = (length (newStories L x) + count_id L (objectID x))%nat).
  { unfold newStories, count_id.
    rewrite (filter_length_split (fun story => negb (objectID x =? objectID story)%Z) L)
      at 1.
    f_equal. f_equal. apply filter_ext. intros y. apply negb_involutive. }
  split; [lia|]. split; [exact Hlen|].
  apply filter_filter_same.
Qed.

(** ** The seed collection *)

(** ** The persisted cell *)

Ltac unfold_hooks :=
  unfold render, useStorageState, mbind, mret, Hook_bind, Hook_ret,
    readItem, useState, useEffect, commit; simpl.

Lemma render_spec (key initialState : string) (r : Renderer) :
  pendingEffects r = [] ->
  render key initialState r =
    (rendered_value initialState r,
     {| stateCell := Some (rendered_value initialState r);
        depsCell := Some [rendered_value initialState r; key];
        pendingEffects := [];
        localStorage :=
          if decide (depsCell r = Some [rendered_value initialState r; key])
          then localStorage r
          else setItem key (rendered_value initialState r) (localStorage r) |}).
Proof.
  destruct r as [st deps pend ls]; simpl; intros ->.
  unfold rendered_value; unfold_hooks.
  destruct st as [v|]; simpl; case_decide as Hd; simpl;
    try rewrite Hd; reflexivity.
Qed.

Module CellFacts.

Import Cell.

Lemma getItem_setItem (k v : string) (ls : Storage) :
  getItem k (setItem k v ls) = Some v.
Proof. unfold getItem, setItem; simpl. apply lookup_insert_eq. Qed.

Lemma create_spec (k d : string) (ls : Storage) :
  create k d ls =
    {| key := k; initialState := d;
       value := js_or (getItem "key" ls) d;
       renderer :=
         {| stateCell := Some (js_or (getItem "key" ls) d);
            depsCell := Some [js_or (getItem "key" ls) d; k];
            pendingEffects := [];
            localStorage := setItem k (js_or (getItem "key" ls) d) ls |} |}.
Proof. unfold create. rewrite render_spec by reflexivity. reflexivity. Qed.

Lemma create_wf (k d : string) (ls : Storage) : wf (create k d ls).
Proof.
  rewrite create_spec. split; simpl; [reflexivity|].
  unfold store; simpl. apply getItem_setItem.
Qed.

Lemma step_SetValue (c : t) (v : string) :
  wf c ->
  step c (SetValue v) =
    {| key := key c; initialState := initialState c; value := v;
       renderer :=
         {| stateCell := Some v;
            depsCell := Some [v; key c];
            pendingEffects := [];
            localStorage :=
              if decide (v = value c) then store c else setItem (key c) v (store c) |} |}.
Proof.
  intros [Hr _]. unfold step. rewrite Hr, render_spec by reflexivity.
  unfold rendered_value; simpl.
  repeat f_equal. repeat case_decide; congruence.
Qed.

Lemma step_Rerender (c : t) (k d : string) :
  wf c ->
  step c (Rerender k d) =
    {| key := k; initialState := d; value := value c;
       renderer :=
         {| stateCell := Some (value c);
            depsCell := Some [value c; k];
            pendingEffects := [];
            localStorage :=
              if decide (k = key c) then store c else setItem k (value c) (store c) |} |}.
Proof.
  intros [Hr _]. unfold step. rewrite Hr, render_spec by reflexivity.
  unfold rendered_value; simpl.
  repeat f_equal. repeat case_decide; congruence.
Qed.

Lemma step_wf (c : t) (e : event) : wf c -> wf (step c e).
Proof.
  intros Hc. pose proof Hc as [_ Hs]. destruct e as [v|k d].
  - rewrite step_SetValue by exact Hc. split; simpl; [reflexivity|].
    unfold store; simpl. case_decide as Hv.
    + subst v. exact Hs.
    + apply getItem_setItem.
  - rewrite step_Rerender by exact Hc. split; simpl; [reflexivity|].
    unfold store; simpl. case_decide as Hk.
    + subst k. exact Hs.
    + apply getItem_setItem.
Qed.

Lemma run_wf (c : t) (es : list event) : wf c -> wf (run c es).
Proof.
  revert c; induction es as [|e es IH]; intros c Hc; simpl; [exact Hc|].
  apply IH, step_wf, Hc.
Qed.

End CellFacts.

Lemma reached_wf (k d : string) (ls : Storage) (es : list Cell.event) :
  Cell.wf (Cell.reached k d ls es).
Proof. apply CellFacts.run_wf, CellFacts.create_wf. Qed.

(** C4: in every state the cell reaches, the store holds the current value
    under the current key; the write-back fires at creation, and after
    every event that changes the value or the key it fires once more,
    writing the current value under the current key. *)
Theorem write_back_after_every_change (k d : string) (ls : Storage) (es : list Cell.event) :
  getItem (Cell.key (Cell.reached k d ls es)) (Cell.store (Cell.reached k d ls es))
    = Some (Cell.value (Cell.reached k d ls es))
  /\ Cell.store (Cell.create k d ls) = setItem k (Cell.value (Cell.create k d ls)) ls
  /\ (forall v,
        Cell.value (Cell.step (Cell.reached k d ls es) (Cell.SetValue v)) = v
        /\ Cell.key (Cell.step (Cell.reached k d ls es) (Cell.SetValue v))
             = Cell.key (Cell.reached k d ls es))
  /\ (forall k' d',
        Cell.key (Cell.step (Cell.reached k d ls es) (Cell.Rerender k' d')) = k'
        /\ Cell.value (Cell.step (Cell.reached k d ls es) (Cell.Rerender k' d'))
             = Cell.value (Cell.reached k d ls es))
  /\ (forall e,
        (Cell.value (Cell.step (Cell.reached k d ls es) e)
           <> Cell.value (Cell.reached k d ls es)
         \/ Cell.key (Cell.step (Cell.reached k d ls es) e)
           <> Cell.key (Cell.reached k d ls es)) ->
        Cell.store (Cell.step (Cell.reached k d ls es) e)
          = setItem (Cell.key (Cell.step (Cell.reached k d ls es) e))
              (Cell.value (Cell.step (Cell.reached k d ls es) e))
              (Cell.store (Cell.reached k d ls es))).
Proof.
  pose proof (reached_wf k d ls es) as Hc.
  set (c := Cell.reached k d ls es) in *.
  split; [apply Hc|]. split; [rewrite CellFacts.create_spec; reflexivity|].
  split; [intros v; rewrite CellFacts.step_SetValue by exact Hc; split; reflexivity|].
  split; [intros k' d'; rewrite CellFacts.step_Rerender by exact Hc; split; reflexivity|].
  intros [v|k' d'].
  - rewrite CellFacts.step_SetValue by exact Hc. unfold Cell.store; simpl.
    intros [Hv|Hk]; [|congruence]. case_decide; [congruence | reflexivity].
  - rewrite CellFacts.step_Rerender by exact Hc. unfold Cell.store; simpl.
    intros [Hv|Hk]; [congruence|]. case_decide; [congruence | reflexivity].
Qed.

(** C9: for a key other than ['key'], the initial value does not depend on
    what the store holds under that key: two stores that agree everywhere
    else give the same initial value, which is the non-empty entry under
    ['key'] when there is one and the default otherwise. *)
Theorem create_ignores_entry_under_key (k d : string) (s1 s2 : Storage) :
  k <> "key" ->
  (forall k', k' <> k -> getItem k' s1 = getItem k' s2) ->
  Cell.value (Cell.create k d s1) = Cell.value (Cell.create k d s2)
  /\ Cell.value (Cell.create k d s1)
       = match getItem "key" s1 with
         | Some "" => d
         | Some v => v
         | None => d
         end.
Proof.
  intros Hk Hagree. rewrite !CellFacts.create_spec; simpl.
  rewrite (Hagree "key") by congruence. split; [reflexivity|].
  destruct (getItem "key" s2) as [[|c v]|]; reflexivity.
Qed.

Lemma create_ignores_entry_under_key_witness :
  Cell.value (Cell.create "search" "React" (mkStorage {[ "search" := "Redux" ]} []))
    = Cell.value (Cell.create "search" "React" (mkStorage ∅ []))
  /\ Cell.value (Cell.create "search" "React" (mkStorage {[ "search" := "Redux" ]} []))
    = match getItem "key" (mkStorage {[ "search" := "Redux" ]} []) with
      | Some "" => "React"
      | Some v => v
      | None => "React"
      end.
Proof.
  apply (create_ignores_entry_under_key "search" "React"
           (mkStorage {[ "search" := "Redux" ]} []) (mkStorage ∅ [])).
  - discriminate.
  - intros k' Hk'. unfold getItem; simpl.
    rewrite lookup_singleton_ne by congruence. rewrite lookup_empty. reflexivity.
Defined.

(** C3: the initial read does not use the key argument.  After the setter
    stores "Redux" under "search", a fresh cell created with the key
    "search" starts from its own default, not from "Redux"; in general the
    initial value comes from the entry under ['key']. *)
Theorem create_reads_literal_key :
  getItem "search"
      (Cell.store (Cell.reached "search" "React" (mkStorage ∅ []) [Cell.SetValue "Redux"]))
    = Some "Redux"
  /\ Cell.value
       (Cell.create "search" "anything"
          (Cell.store (Cell.reached "search" "React" (mkStorage ∅ []) [Cell.SetValue "Redux"])))
     = "anything"
  /\ (forall k d ls, Cell.value (Cell.create k d ls) = js_or (getItem "key" ls) d).
Proof.
  split; [vm_compute; reflexivity|]. split; [vm_compute; reflexivity|].
  intros k d ls. rewrite CellFacts.create_spec. reflexivity.
Qed.

(** ** The container's handlers *)

Lemma search_handleRemoveStory (item : Item) (a : App.t) :
  App.search (App.handleRemoveStory item a)
    = Cell.step (App.search a) (Cell.Rerender "search" "React").
Proof. reflexivity. Qed.

Lemma search_handleSearch (text : string) (a : App.t) :
  App.search (App.handleSearch text a) = Cell.step (App.search a) (Cell.SetValue text).
Proof. reflexivity. Qed.

Lemma App_step_inv (a : App.t) (e : App.event) :
  Cell.wf (App.search a) /\ Cell.key (App.search a) = "search" ->
  Cell.wf (App.search (App.step a e)) /\ Cell.key (App.search (App.step a e)) = "search".
Proof.
  intros [Hwf Hkey]. destruct e as [item|text]; unfold App.step.
  - rewrite search_handleRemoveStory. split; [apply CellFacts.step_wf, Hwf|].
    rewrite CellFacts.step_Rerender by exact Hwf. reflexivity.
  - rewrite search_handleSearch. split; [apply CellFacts.step_wf, Hwf|].
    rewrite CellFacts.step_SetValue by exact Hwf. exact Hkey.
Qed.

Lemma App_reached_inv (ls : Storage) (es : list App.event) :
  Cell.wf (App.search (App.reached ls es))
  /\ Cell.key (App.search (App.reached ls es)) = "search".
Proof.
  unfold App.reached.
  assert (H0 : Cell.wf (App.search (App.mount ls))
               /\ Cell.key (App.search (App.mount ls)) = "search").
  { change (App.search (App.mount ls)) with (Cell.create "search" "React" ls).
    split; [apply CellFacts.create_wf|].
    rewrite CellFacts.create_spec. reflexivity. }
  revert H0. generalize (App.mount ls) as a.
  induction es as [|e es IH]; intros a Ha; [exact Ha|].
  apply (IH (App.step a e)), App_step_inv, Ha.
Qed.

(** C10: in every state the container reaches, [handleRemoveStory] changes
    the stories only (the search term and the store stay as they are, no
    write-back fires), and [handleSearch] changes the search term only (the
    stories stay as they are). *)
Theorem handlers_frame (ls : Storage) (es : list App.event) (item : Item) (text : string) :
  App.searchTerm (App.handleRemoveStory item (App.reached ls es))
    = App.searchTerm (App.reached ls es)
  /\ App.store (App.handleRemoveStory item (App.reached ls es))
    = App.store (App.reached ls es)
  /\ App.stories (App.handleRemoveStory item (App.reached ls es))
    = newStories (App.stories (App.reached ls es)) item
  /\ App.stories (App.handleSearch text (App.reached ls es))
    = App.stories (App.reached ls es)
  /\ App.searchTerm (App.handleSearch text (App.reached ls es)) = text.
Proof.
  destruct (App_reached_inv ls es) as [Hwf Hkey].
  set (a := App.reached ls es) in *.
  unfold App.searchTerm, App.store.
  rewrite search_handleRemoveStory, search_handleSearch.
  rewrite CellFacts.step_Rerender, CellFacts.step_SetValue by exact Hwf.
  unfold Cell.store; simpl.
  repeat split. case_decide; [reflexivity | congruence].
Qed.

(** ** The seed collection *)

(** C8: on the seed collection, the filter "Red" leaves the Redux story
    alone, removing [objectID] 1 leaves the React story alone, and the
    filter "xyz" leaves nothing; the same through the handlers of the
    mounted container, whatever the store holds. *)
Theorem seed_end_to_end :
  searchedStories JSString.toLowerCase_ascii initialStories "Red"
    = [ mkItem "Redux" "https://redux.js.org/" "Dan Abramov, Andrew Clark" 2 5 1 ]
  /\ (forall t u w n p,
        newStories initialStories (mkItem t u w n p 1)
          = [ mkItem "React" "https://reactjs.org/" "Jordan Walke" 3 4 0 ])
  /\ searchedStories JSString.toLowerCase_ascii initialStories "xyz" = []
  /\ (forall ls,
        App.view JSString.toLowerCase_ascii (App.handleSearch "Red" (App.mount ls))
          = [ mkItem "Redux" "https://redux.js.org/" "Dan Abramov, Andrew Clark" 2 5 1 ])
  /\ (forall ls t u w n p,
        App.stories (App.handleRemoveStory (mkItem t u w n p 1) (App.mount ls))
          = [ mkItem "React" "https://reactjs.org/" "Jordan Walke" 3 4 0 ])
  /\ (forall ls,
        App.view JSString.toLowerCase_ascii (App.handleSearch "xyz" (App.mount ls)) = []).
Proof.
  split; [reflexivity|]. split; [reflexivity|]. split; [reflexivity|].
  assert (Hview : forall ls text,
            App.view JSString.toLowerCase_ascii (App.handleSearch text (App.mount ls))
              = searchedStories JSString.toLowerCase_ascii initialStories text).
  { intros ls text. unfold App.view, App.searchTerm.
    rewrite search_handleSearch.
    change (App.search (App.mount ls)) with (Cell.create "search" "React" ls).
    rewrite CellFacts.step_SetValue by apply CellFacts.create_wf. reflexivity. }
  split; [intros ls; rewrite Hview; reflexivity|].
  split; [reflexivity|].
  intros ls; rewrite Hview; reflexivity.
Qed.

(** ** The Dismiss trigger *)

(** C5: the trigger of a row of src/App.jsx does not complete.  [Item]
    there takes [item] alone from its props, so [onRemoveItem] is unbound
    when the button is activated and a ReferenceError is raised, for every
    row [List] builds and in every state; the second copy of the
    component, whose [Item] takes both props, calls the removal callback
    with the row's story. *)
Theorem Item_trigger_unbound_callback
    (L : list Item) (onRemoveItem : Item -> App.t -> App.t) (a : App.t) :
  Forall (fun p => Row.Item_App p a = Row.Throw (Row.ReferenceError "onRemoveItem"))
         (Row.List L onRemoveItem)
  /\ Forall2 (fun item p => Row.Item_part_000 p a = Row.Normal (onRemoveItem item a))
             L (Row.List L onRemoveItem)
  /\ Row.Item_App
       [("item", Row.Story (mkItem "React" "https://reactjs.org/" "Jordan Walke" 3 4 0));
        ("onRemoveItem", Row.Callback App.handleRemoveStory)]
       (App.mount (mkStorage ∅ []))
     = Row.Throw (Row.ReferenceError "onRemoveItem").
Proof.
  split; [|split; [|reflexivity]].
  - induction L as [|x L IH]; simpl; constructor; [reflexivity | exact IH].
  - induction L as [|x L IH]; simpl; constructor; [reflexivity | exact IH].
Qed.

(** * Further properties of the container *)

Lemma append_assoc (s t u : string) : (s +:+ t) +:+ u = s +:+ t +:+ u.
Proof.
  induction s as [|c s IH]; [reflexivity|].
  rewrite !append_cons, IH. reflexivity.
Qed.

Lemma substring_of_trans (u t s : string) :
  JSString.substring_of u t -> JSString.substring_of t s -> JSString.substring_of u s.
Proof.
  intros (p1 & q1 & ->) (p2 & q2 & ->).
  exists (p2 +:+ p1), (q1 +:+ q2). rewrite !append_assoc. reflexivity.
Qed.

Lemma filter_comm {A : Type} (p q : A -> bool) (l : list A) :
  List.filter p (List.filter q l) = List.filter q (List.filter p l).
Proof.
  induction l as [|x l IH]; simpl; [reflexivity|].
  destruct (p x) eqn:Hp, (q x) eqn:Hq; simpl; rewrite ?Hp, ?Hq, IH; reflexivity.
Qed.

(** Induction over the states the container reaches. *)
Lemma App_reached_ind (P : App.t -> Prop) (ls : Storage) :
  P (App.mount ls) ->
  (forall a e, P a -> P (App.step a e)) ->
  forall es, P (App.reached ls es).
Proof.
  intros H0 Hstep es. unfold App.reached. revert H0. generalize (App.mount ls) as a.
  induction es as [|e es IH]; intros a Ha; [exact Ha|].
  apply (IH (App.step a e)), Hstep, Ha.
Qed.

Lemma searchTerm_handleRemoveStory (ls : Storage) (es : list App.event) (x : Item) :
  App.searchTerm (App.handleRemoveStory x (App.reached ls es))
    = App.searchTerm (App.reached ls es).
Proof.
  destruct (App_reached_inv ls es) as [Hwf _].
  unfold App.searchTerm. rewrite search_handleRemoveStory.
  rewrite CellFacts.step_Rerender by exact Hwf. reflexivity.
Qed.

Lemma view_handleRemoveStory
    (toLowerCase : string -> string) (ls : Storage) (es : list App.event) (x : Item) :
  App.view toLowerCase (App.handleRemoveStory x (App.reached ls es))
    = newStories (App.view toLowerCase (App.reached ls es)) x.
Proof.
  unfold App.view. rewrite searchTerm_handleRemoveStory.
  unfold searchedStories, newStories. simpl. apply filter_comm.
Qed.

(** X1: dismissing a story changes the displayed list by dropping the
    rows of that story and nothing else: the view after the removal is the
    view before it, filtered by the removal test; the story itself is no
    longer displayed. *)
Theorem view_after_removal
    (toLowerCase : string -> string) (ls : Storage) (es : list App.event) (x : Item) :
  App.view toLowerCase (App.handleRemoveStory x (App.reached ls es))
    = newStories (App.view toLowerCase (App.reached ls es)) x
  /\ x ∉ App.view toLowerCase (App.handleRemoveStory x (App.reached ls es)).
Proof.
  rewrite view_handleRemoveStory. split; [reflexivity|].
  unfold newStories. rewrite filter_elem_of, Z.eqb_refl. simpl. intros [_ H]. discriminate.
Qed.

(** X2: a longer search term narrows the view: when the lower-cased [f1]
    occurs inside the lower-cased [f2], every story displayed under [f2]
    is displayed under [f1], in the same order. *)
Theorem search_narrows
    (toLowerCase : string -> string) (L : list Item) (f1 f2 : string) :
  JSString.substring_of (toLowerCase f1) (toLowerCase f2) ->
  searchedStories toLowerCase L f2 `sublist_of` searchedStories toLowerCase L f1.
Proof.
  intros Hsub. unfold searchedStories.
  apply filter_greatest; [apply filter_sublist|].
  intros x Hx. apply filter_elem_of in Hx as [_ Hx].
  apply matches_substring_of. apply matches_substring_of in Hx.
  eapply substring_of_trans; eassumption.
Qed.

Lemma search_narrows_witness :
  searchedStories JSString.toLowerCase_ascii initialStories "Red"
    `sublist_of` searchedStories JSString.toLowerCase_ascii initialStories "RE".
Proof.
  apply (search_narrows JSString.toLowerCase_ascii initialStories "RE" "Red").
  exists "", "d". reflexivity.
Defined.

Lemma stories_sublist_seed (ls : Storage) (es : list App.event) :
  App.stories (App.reached ls es) `sublist_of` initialStories.
Proof.
  apply (App_reached_ind (fun a => App.stories a `sublist_of` initialStories)).
  - reflexivity.
  - intros a [x|text] Ha; simpl; [|exact Ha].
    etrans; [apply filter_sublist | exact Ha].
Qed.

(** X3: no event adds or reorders stories: in every state the container
    reaches, the stories, and so the displayed list, are a subsequence of
    the seed list; at most two stories are ever held. *)
Theorem stories_within_seed
    (toLowerCase : string -> string) (ls : Storage) (es : list App.event) :
  App.stories (App.reached ls es) `sublist_of` initialStories
  /\ App.view toLowerCase (App.reached ls es) `sublist_of` initialStories
  /\ (length (App.stories (App.reached ls es)) <= 2)%nat.
Proof.
  pose proof (stories_sublist_seed ls es) as Hs.
  split; [exact Hs|]. split.
  - etrans; [apply filter_sublist | exact Hs].
  - apply sublist_length in Hs. exact Hs.
Qed.

Lemma objectIDs_NoDup (ls : Storage) (es : list App.event) :
  NoDup (map objectID (App.stories (App.reached ls es))).
Proof.
  eapply sublist_NoDup; [|apply (fmap_sublist objectID), stories_sublist_seed].
  simpl. apply NoDup_cons_2; [|apply NoDup_singleton].
  intros H%list_elem_of_singleton. discriminate.
Qed.

(** X4: the keys [List] gives its rows ([key={item.objectID}]) are pairwise
    distinct in every state the container reaches, under every search
    term. *)
Theorem row_keys_distinct
    (toLowerCase : string -> string) (ls : Storage) (es : list App.event) :
  NoDup (UI.keys toLowerCase (App.reached ls es))
  /\ length (UI.rows toLowerCase (App.reached ls es))
     = length (UI.keys toLowerCase (App.reached ls es)).
Proof.
  unfold UI.keys, UI.rows, Row.List. split; [|rewrite !length_map; reflexivity].
  eapply sublist_NoDup; [apply objectIDs_NoDup|].
  apply (fmap_sublist objectID), filter_sublist.
Qed.

Lemma count_id_absent (L : list Item) (i : Z) :
  i ∉ map objectID L -> count_id L i = 0%nat.
Proof.
  unfold count_id. induction L as [|y L IH]; simpl; [reflexivity|].
  intros Hi. apply not_elem_of_cons in Hi as [Hy HL].
  destruct (Z.eqb_spec i (objectID y)) as [E|_]; [contradiction|]. apply IH, HL.
Qed.

Lemma count_id_once (L : list Item) (x : Item) :
  NoDup (map objectID L) -> x ∈ L -> count_id L (objectID x) = 1%nat.
Proof.
  induction L as [|y L IH]; simpl; intros Hnd Hx.
  - apply elem_of_nil in Hx. contradiction.
  - apply NoDup_cons in Hnd as [Hy Hnd]. unfold count_id in *. simpl.
    apply elem_of_cons in Hx as [->|Hx].
    + rewrite Z.eqb_refl. simpl. f_equal. apply (count_id_absent L), Hy.
    + destruct (Z.eqb_spec (objectID x) (objectID y)) as [E|_]; [|apply IH; assumption].
      exfalso. apply Hy. rewrite <- E. apply (list_elem_of_fmap_2 objectID), Hx.
Qed.

Lemma objectID_inj_on (L : list Item) (x y : Item) :
  NoDup (map objectID L) -> x ∈ L -> y ∈ L -> objectID x = objectID y -> x = y.
Proof.
  induction L as [|z L IH]; simpl; intros Hnd Hx Hy E.
  - apply elem_of_nil in Hx. contradiction.
  - apply NoDup_cons in Hnd as [Hz Hnd].
    apply elem_of_cons in Hx as [->|Hx]; apply elem_of_cons in Hy as [->|Hy].
    + reflexivity.
    + exfalso. apply Hz. rewrite E. apply (list_elem_of_fmap_2 objectID), Hy.
    + exfalso. apply Hz. rewrite <- E. apply (list_elem_of_fmap_2 objectID), Hx.
    + apply IH; assumption.
Qed.

(** X5: since the identifiers of the held stories are distinct, dismissing
    a story that is held removes that story and no other: the collection
    gets shorter by one and keeps exactly the stories different from it. *)
Theorem handleRemoveStory_exactly_one (ls : Storage) (es : list App.event) (x : Item) :
  x ∈ App.stories (App.reached ls es) ->
  S (length (App.stories (App.handleRemoveStory x (App.reached ls es))))
    = length (App.stories (App.reached ls es))
  /\ (forall y, y ∈ App.stories (App.handleRemoveStory x (App.reached ls es)) <->
        y ∈ App.stories (App.reached ls es) /\ y <> x).
Proof.
  intros Hx. pose proof (objectIDs_NoDup ls es) as Hnd.
  set (a := App.reached ls es) in *. simpl. split.
  - pose proof (count_id_once _ _ Hnd Hx) as Hc. unfold count_id in Hc.
    unfold newStories.
    rewrite (filter_length_split (fun story => negb (objectID x =? objectID story)%Z)
               (App.stories a)).
    rewrite (filter_ext _ (fun story => (objectID x =? objectID story)%Z)
               (fun y => negb_involutive _)).
    rewrite Hc. lia.
  - intros y. unfold newStories. rewrite filter_elem_of, newStories_keep. split.
    + intros [Hy Hne]. split; [exact Hy | congruence].
    + intros [Hy Hne]. split; [exact Hy|].
      intros E. apply Hne. apply (objectID_inj_on (App.stories a)); auto.
Qed.

Lemma handleRemoveStory_exactly_one_witness :
  S (length (App.stories
       (App.handleRemoveStory (mkItem "Redux" "https://redux.js.org/"
                                 "Dan Abramov, Andrew Clark" 2 5 1)
          (App.reached (mkStorage ∅ []) []))))
  = length (App.stories (App.reached (mkStorage ∅ []) [])).
Proof.
  apply (handleRemoveStory_exactly_one (mkStorage ∅ []) []
           (mkItem "Redux" "https://redux.js.org/" "Dan Abramov, Andrew Clark" 2 5 1)).
  simpl. apply elem_of_cons. right. apply elem_of_cons. left. reflexivity.
Defined.

Lemma App_t_eq (a b : App.t) :
  App.stories a = App.stories b -> App.search a = App.search b -> a = b.
Proof. destruct a, b; simpl; intros -> ->; reflexivity. Qed.

(** X6: typing in the search input and dismissing a story commute: from
    every state the container reaches, the two orders end in the same
    state, store included. *)
Theorem search_and_removal_commute
    (ls : Storage) (es : list App.event) (x : Item) (text : string) :
  App.handleSearch text (App.handleRemoveStory x (App.reached ls es))
    = App.handleRemoveStory x (App.handleSearch text (App.reached ls es)).
Proof.
  destruct (App_reached_inv ls es) as [Hwf Hkey].
  set (a := App.reached ls es) in *.
  apply App_t_eq; [reflexivity|].
  rewrite search_handleSearch, !search_handleRemoveStory, search_handleSearch.
  pose proof (CellFacts.step_wf _ (Cell.Rerender "search" "React") Hwf) as Hwf1.
  pose proof (CellFacts.step_wf _ (Cell.SetValue text) Hwf) as Hwf2.
  rewrite (CellFacts.step_SetValue _ text Hwf1).
  rewrite (CellFacts.step_Rerender _ "search" "React" Hwf2).
  rewrite (CellFacts.step_Rerender _ "search" "React" Hwf).
  rewrite (CellFacts.step_SetValue _ text Hwf).
  unfold Cell.store; simpl. rewrite Hkey.
  repeat case_decide; try congruence; reflexivity.
Qed.

(** X7: the order of two dismissals does not matter, in any state. *)
Theorem removals_commute (a : App.t) (x y : Item) :
  App.handleRemoveStory x (App.handleRemoveStory y a)
    = App.handleRemoveStory y (App.handleRemoveStory x a).
Proof.
  apply App_t_eq; [|rewrite !search_handleRemoveStory; reflexivity].
  change (newStories (newStories (App.stories a) y) x
          = newStories (newStories (App.stories a) x) y).
  unfold newStories. apply filter_comm.
Qed.

(** * Further properties of the persisted cell *)

(** Induction over the states a cell reaches. *)
Lemma Cell_reached_ind (P : Cell.t -> Prop) (k d : string) (ls : Storage) :
  P (Cell.create k d ls) ->
  (forall c e, Cell.wf c -> P c -> P (Cell.step c e)) ->
  forall es, P (Cell.reached k d ls es).
Proof.
  intros H0 Hstep es. unfold Cell.reached.
  pose proof (CellFacts.create_wf k d ls) as Hwf. revert Hwf H0.
  generalize (Cell.create k d ls) as c.
  induction es as [|e es IH]; intros c Hwf Hc; [exact Hc|].
  apply (IH (Cell.step c e)); [apply CellFacts.step_wf, Hwf | apply Hstep; assumption].
Qed.

(** An event either leaves the store, the key and the value alone, or
    writes the new value under the new key. *)
Lemma step_store_cases (c : Cell.t) (e : Cell.event) :
  Cell.wf c ->
  (Cell.store (Cell.step c e) = Cell.store c
   /\ Cell.key (Cell.step c e) = Cell.key c
   /\ Cell.value (Cell.step c e) = Cell.value c)
  \/ Cell.store (Cell.step c e)
     = setItem (Cell.key (Cell.step c e)) (Cell.value (Cell.step c e)) (Cell.store c).
Proof.
  intros Hwf. destruct e as [v|k d].
  - rewrite CellFacts.step_SetValue by exact Hwf. unfold Cell.store; simpl.
    case_decide; [left; auto | right; reflexivity].
  - rewrite CellFacts.step_Rerender by exact Hwf. unfold Cell.store; simpl.
    case_decide; [left; auto | right; reflexivity].
Qed.

Lemma step_key_cases (c : Cell.t) (e : Cell.event) :
  Cell.wf c ->
  Cell.key (Cell.step c e) = Cell.key c \/ Cell.key (Cell.step c e) ∈ rerender_keys [e].
Proof.
  intros Hwf. destruct e as [v|k d].
  - rewrite CellFacts.step_SetValue by exact Hwf. left; reflexivity.
  - rewrite CellFacts.step_Rerender by exact Hwf. right; simpl.
    apply elem_of_cons. left; reflexivity.
Qed.

Lemma getItem_setItem_ne (k k0 v : string) (ls : Storage) :
  k <> k0 -> getItem k0 (setItem k v ls) = getItem k0 ls.
Proof. intros Hne. unfold getItem, setItem; simpl. apply lookup_insert_ne, Hne. Qed.

(** X8: the write-back is skipped when nothing changed: calling the setter
    with the current value, or rendering again with the current key,
    makes no [setItem] call and leaves the store as it is. *)
Theorem no_write_without_change
    (k d : string) (ls : Storage) (es : list Cell.event) (d' : string) :
  Cell.store (Cell.step (Cell.reached k d ls es)
                (Cell.SetValue (Cell.value (Cell.reached k d ls es))))
    = Cell.store (Cell.reached k d ls es)
  /\ Cell.store (Cell.step (Cell.reached k d ls es)
                   (Cell.Rerender (Cell.key (Cell.reached k d ls es)) d'))
    = Cell.store (Cell.reached k d ls es).
Proof.
  pose proof (reached_wf k d ls es) as Hwf.
  set (c := Cell.reached k d ls es) in *.
  rewrite CellFacts.step_SetValue, CellFacts.step_Rerender by exact Hwf.
  unfold Cell.store; simpl. split; case_decide; congruence.
Qed.

Lemma run_other_keys (c : Cell.t) (es : list Cell.event) (k0 : string) :
  Cell.wf c ->
  k0 <> Cell.key c -> k0 ∉ rerender_keys es ->
  getItem k0 (Cell.store (Cell.run c es)) = getItem k0 (Cell.store c).
Proof.
  revert c; induction es as [|e es IH]; intros c Hwf Hk0 Hes; [reflexivity|].
  change (Cell.run c (e :: es)) with (Cell.run (Cell.step c e) es).
  assert (He : (k0 ∉ rerender_keys [e]) /\ (k0 ∉ rerender_keys es)).
  { destruct e; simpl in *; [split; [apply not_elem_of_nil | exact Hes]|].
    apply not_elem_of_cons in Hes as [? ?].
    split; [apply not_elem_of_cons; split; [assumption | apply not_elem_of_nil]
           | assumption]. }
  destruct He as [He Hes'].
  assert (Hk1 : k0 <> Cell.key (Cell.step c e)).
  { destruct (step_key_cases c e Hwf) as [->| Hin]; [exact Hk0|].
    intros ->. contradiction. }
  rewrite IH; [| apply CellFacts.step_wf, Hwf | exact Hk1 | exact Hes'].
  destruct (step_store_cases c e Hwf) as [(-> & _ & _)| ->]; [reflexivity|].
  apply getItem_setItem_ne. congruence.
Qed.

(** X9: the cell touches no entry but those under its own keys: an entry
    under a key that is neither the key of creation nor a key of a later
    render reads the same after any events. *)
Theorem other_entries_untouched
    (k d : string) (ls : Storage) (es : list Cell.event) (k0 : string) :
  k0 <> k -> k0 ∉ rerender_keys es ->
  getItem k0 (Cell.store (Cell.reached k d ls es)) = getItem k0 ls.
Proof.
  intros Hk Hes. unfold Cell.reached.
  rewrite run_other_keys; [| apply CellFacts.create_wf | | exact Hes].
  - rewrite CellFacts.create_spec. unfold Cell.store; simpl.
    apply getItem_setItem_ne. congruence.
  - rewrite CellFacts.create_spec. exact Hk.
Qed.

Lemma other_entries_untouched_witness :
  getItem "theme"
    (Cell.store (Cell.reached "search" "React" (mkStorage {[ "theme" := "dark" ]} [])
                   [Cell.SetValue "Redux"; Cell.Rerender "query" "React"]))
  = getItem "theme" (mkStorage {[ "theme" := "dark" ]} []).
Proof.
  apply (other_entries_untouched "search" "React" (mkStorage {[ "theme" := "dark" ]} [])
           [Cell.SetValue "Redux"; Cell.Rerender "query" "React"] "theme").
  - discriminate.
  - simpl. intros H%list_elem_of_singleton. discriminate.
Defined.

(** X10: the cell never deletes: every key present in the store stays
    present, and after the key changes the entry under the old key still
    holds the value written there (no clean-up on a key change). *)
Theorem entries_never_deleted
    (k d : string) (ls : Storage) (es : list Cell.event) (k' d' : string) :
  dom (entries ls) ⊆ dom (entries (Cell.store (Cell.reached k d ls es)))
  /\ getItem (Cell.key (Cell.reached k d ls es))
       (Cell.store (Cell.step (Cell.reached k d ls es) (Cell.Rerender k' d')))
     = Some (Cell.value (Cell.reached k d ls es)).
Proof.
  split.
  - apply (Cell_reached_ind
             (fun c => dom (entries ls) ⊆ dom (entries (Cell.store c)))).
    + rewrite CellFacts.create_spec. unfold Cell.store; simpl.
      rewrite dom_insert_L. set_solver.
    + intros c e Hwf Hc.
      destruct (step_store_cases c e Hwf) as [(-> & _ & _)| ->]; [exact Hc|].
      simpl. rewrite dom_insert_L. set_solver.
  - pose proof (reached_wf k d ls es) as Hwf.
    set (c := Cell.reached k d ls es) in *.
    rewrite CellFacts.step_Rerender by exact Hwf. unfold Cell.store; simpl.
    destruct Hwf as [_ Hs]. unfold Cell.store in Hs.
    case_decide as Hk; [exact Hs|].
    rewrite getItem_setItem_ne by exact Hk. exact Hs.
Qed.

Lemma run_calls (c : Cell.t) (es : list Cell.event) :
  Cell.wf c ->
  exists w,
    setItem_calls (Cell.store (Cell.run c es)) = setItem_calls (Cell.store c) ++ w
    /\ (length w <= length es)%nat.
Proof.
  revert c; induction es as [|e es IH]; intros c Hwf.
  - exists []. rewrite app_nil_r. split; [reflexivity | simpl; lia].
  - change (Cell.run c (e :: es)) with (Cell.run (Cell.step c e) es).
    destruct (IH (Cell.step c e) (CellFacts.step_wf c e Hwf)) as (w & Hw & Hlen).
    destruct (step_store_cases c e Hwf) as [(E & _ & _)| E]; rewrite E in Hw.
    + exists w. split; [exact Hw | simpl; lia].
    + eexists (_ :: w). split; [rewrite Hw; simpl; rewrite <- app_assoc; reflexivity|].
      simpl; lia.
Qed.

(** X11: the trace of writes only grows, by at most one call per render,
    and its last call is always the current value under the current key. *)
Theorem last_write_is_current (k d : string) (ls : Storage) (es : list Cell.event) :
  last (setItem_calls (Cell.store (Cell.reached k d ls es)))
    = Some (Cell.key (Cell.reached k d ls es), Cell.value (Cell.reached k d ls es))
  /\ exists w,
       setItem_calls (Cell.store (Cell.reached k d ls es)) = setItem_calls ls ++ w
       /\ (1 <= length w <= 1 + length es)%nat.
Proof.
  split.
  - apply (Cell_reached_ind
             (fun c => last (setItem_calls (Cell.store c))
                       = Some (Cell.key c, Cell.value c))).
    + rewrite CellFacts.create_spec. unfold Cell.store; simpl. apply last_snoc.
    + intros c e Hwf Hc.
      destruct (step_store_cases c e Hwf) as [(-> & -> & ->)| ->]; [exact Hc|].
      simpl. apply last_snoc.
  - unfold Cell.reached.
    destruct (run_calls (Cell.create k d ls) es (CellFacts.create_wf k d ls))
      as (w & Hw & Hlen).
    rewrite CellFacts.create_spec in Hw at 2. unfold Cell.store in Hw at 2.
    simpl in Hw. rewrite <- app_assoc in Hw.
    eexists. split; [exact Hw | simpl; lia].
Qed.

(** X12: a cell whose key is ['key'] is the one whose value comes back: a
    fresh cell, created under any key on the store such a cell left,
    starts from that cell's value, unless the value is the empty string,
    in which case it starts from its own default. *)
Theorem literal_key_round_trip
    (k d : string) (ls : Storage) (es : list Cell.event) (k' d' : string) :
  Cell.key (Cell.reached k d ls es) = "key" ->
  Cell.value (Cell.create k' d' (Cell.store (Cell.reached k d ls es)))
    = if truthy (Cell.value (Cell.reached k d ls es))
      then Cell.value (Cell.reached k d ls es)
      else d'.
Proof.
  intros E. pose proof (reached_wf k d ls es) as [_ Hs].
  rewrite E in Hs. rewrite CellFacts.create_spec; simpl.
  rewrite Hs. reflexivity.
Qed.

Lemma literal_key_round_trip_witness :
  Cell.value
    (Cell.create "key" "anything"
       (Cell.store (Cell.reached "key" "React" (mkStorage ∅ []) [Cell.SetValue "Redux"])))
  = if truthy (Cell.value
                 (Cell.reached "key" "React" (mkStorage ∅ []) [Cell.SetValue "Redux"]))
    then Cell.value (Cell.reached "key" "React" (mkStorage ∅ []) [Cell.SetValue "Redux"])
    else "anything".
Proof.
  apply (literal_key_round_trip "key" "React" (mkStorage ∅ []) [Cell.SetValue "Redux"]
           "key" "anything").
  vm_compute. reflexivity.
Defined.

(** * The container and the store *)

(** The event of the search cell that an event of the container amounts to. *)
Lemma search_step (a : App.t) (e : App.event) :
  exists e', App.search (App.step a e) = Cell.step (App.search a) e'.
Proof.
  destruct e as [x|text]; eexists; [apply search_handleRemoveStory | apply search_handleSearch].
Qed.

Lemma App_store_inv (ls : Storage) (es : list App.event) :
  (exists w,
     setItem_calls (App.store (App.reached ls es)) = setItem_calls ls ++ w
     /\ Forall (fun kv => kv.1 = "search") w)
  /\ (forall k0, k0 <> "search" ->
        getItem k0 (App.store (App.reached ls es)) = getItem k0 ls).
Proof.
  cut (let a := App.reached ls es in
       (Cell.wf (App.search a) /\ Cell.key (App.search a) = "search")
       /\ (exists w,
             setItem_calls (App.store a) = setItem_calls ls ++ w
             /\ Forall (fun kv => kv.1 = "search") w)
       /\ (forall k0, k0 <> "search" -> getItem k0 (App.store a) = getItem k0 ls)).
  { intros (_ & H1 & H2). split; assumption. }
  apply (App_reached_ind
    (fun a =>
       (Cell.wf (App.search a) /\ Cell.key (App.search a) = "search")
       /\ (exists w,
             setItem_calls (App.store a) = setItem_calls ls ++ w
             /\ Forall (fun kv => kv.1 = "search") w)
       /\ (forall k0, k0 <> "search" -> getItem k0 (App.store a) = getItem k0 ls))).
  - split; [apply (App_reached_inv ls [])|].
    unfold App.store. change (App.search (App.mount ls)) with (Cell.create "search" "React" ls).
    rewrite CellFacts.create_spec. unfold Cell.store; simpl. split.
    + eexists. split; [reflexivity|]. repeat constructor.
    + intros k0 Hk0. apply getItem_setItem_ne. congruence.
  - intros a e (Hinv & (w & Hw & Hall) & Hframe).
    pose proof (App_step_inv a e Hinv) as Hinv'. split; [exact Hinv'|].
    destruct Hinv as [Hwf Hkey]. destruct Hinv' as [_ Hkey'].
    destruct (search_step a e) as [e' He']. unfold App.store in *.
    rewrite He' in *.
    destruct (step_store_cases (App.search a) e' Hwf) as [(-> & _ & _)| ->].
    + split; [exists w; split; assumption | exact Hframe].
    + rewrite Hkey'. split.
      * eexists (w ++ [_]). simpl. rewrite Hw, <- app_assoc.
        split; [reflexivity|]. apply Forall_app. split; [exact Hall|].
        repeat constructor.
      * intros k0 Hk0. rewrite getItem_setItem_ne by congruence. apply Hframe, Hk0.
Qed.

(** X13: the container writes under ['search'] and nowhere else: every
    [setItem] call it adds to the trace has the key ['search'], every
    other entry of the store reads as before, and the entry under
    ['search'] is the current search term. *)
Theorem App_writes_only_search (ls : Storage) (es : list App.event) :
  (exists w,
     setItem_calls (App.store (App.reached ls es)) = setItem_calls ls ++ w
     /\ Forall (fun kv => kv.1 = "search") w)
  /\ (forall k0, k0 <> "search" ->
        getItem k0 (App.store (App.reached ls es)) = getItem k0 ls)
  /\ getItem "search" (App.store (App.reached ls es))
     = Some (App.searchTerm (App.reached ls es)).
Proof.
  destruct (App_store_inv ls es) as [H1 H2]. split; [exact H1|]. split; [exact H2|].
  destruct (App_reached_inv ls es) as [[_ Hs] Hkey].
  rewrite Hkey in Hs. exact Hs.
Qed.

(** X14: the search term a session ends with is not the one the next
    session starts with: mounting the container on the store a session
    left gives the same search term as mounting it on the store the
    session began with, whatever was typed in between; with no entry
    under ['key'] that term is "React". *)
Theorem reload_forgets_search_term (ls : Storage) (es : list App.event) :
  App.searchTerm (App.mount (App.store (App.reached ls es)))
    = App.searchTerm (App.mount ls)
  /\ (getItem "key" ls = None ->
      App.searchTerm (App.mount (App.store (App.reached ls es))) = "React").
Proof.
  assert (Hterm : forall s, App.searchTerm (App.mount s) = js_or (getItem "key" s) "React").
  { intros s. unfold App.searchTerm.
    change (App.search (App.mount s)) with (Cell.create "search" "React" s).
    rewrite CellFacts.create_spec. reflexivity. }
  destruct (App_store_inv ls es) as [_ Hframe].
  rewrite !Hterm, Hframe by discriminate.
  split; [reflexivity|]. intros ->. reflexivity.
Qed.

(** * The search input's focus *)

Lemma InputWithLabel_render_inv (p : InputWithLabel.props) (s : InputWithLabel.t) (b : bool) :
  InputWithLabel.inputRef_current s = true ->
  InputWithLabel.effectDeps s = Some [b] ->
  InputWithLabel.inputRef_current (InputWithLabel.render p s) = true
  /\ InputWithLabel.effectDeps (InputWithLabel.render p s)
     = Some [InputWithLabel.isFocused p]
  /\ InputWithLabel.focus_calls (InputWithLabel.render p s)
     = (InputWithLabel.focus_calls s
        + if (InputWithLabel.isFocused p && negb b)%bool then 1 else 0)%nat.
Proof.
  intros Href Hdeps. unfold InputWithLabel.render, InputWithLabel.effect.
  rewrite Hdeps. case_decide as Hd; simpl.
  - injection Hd as ->. rewrite andb_negb_r. repeat split. lia.
  - destruct (InputWithLabel.isFocused p), b; simpl; try congruence;
      repeat split; lia.
Qed.

Lemma InputWithLabel_run (ps : list InputWithLabel.props) (s : InputWithLabel.t) (b : bool) :
  InputWithLabel.inputRef_current s = true ->
  InputWithLabel.effectDeps s = Some [b] ->
  InputWithLabel.focus_calls (fold_left (fun s q => InputWithLabel.render q s) ps s)
    = (InputWithLabel.focus_calls s
       + InputWithLabel.rising b (map InputWithLabel.isFocused ps))%nat.
Proof.
  revert s b; induction ps as [|p ps IH]; intros s b Href Hdeps; simpl; [lia|].
  destruct (InputWithLabel_render_inv p s b Href Hdeps) as (Href' & Hdeps' & Hcalls).
  rewrite (IH _ _ Href' Hdeps'), Hcalls. lia.
Qed.

Lemma InputWithLabel_mount (p : InputWithLabel.props) :
  InputWithLabel.inputRef_current (InputWithLabel.mount p) = true
  /\ InputWithLabel.effectDeps (InputWithLabel.mount p) = Some [InputWithLabel.isFocused p]
  /\ InputWithLabel.focus_calls (InputWithLabel.mount p)
     = if InputWithLabel.isFocused p then 1%nat else 0%nat.
Proof.
  unfold InputWithLabel.mount, InputWithLabel.render, InputWithLabel.effect; simpl.
  destruct (InputWithLabel.isFocused p); simpl; repeat split.
Qed.

(** X15: [focus()] is called on exactly those renders of the search input
    on which [isFocused] is set and was not set on the render before (the
    first render counting as one where it was not). *)
Theorem focus_calls_rising (p : InputWithLabel.props) (ps : list InputWithLabel.props) :
  InputWithLabel.focus_calls (InputWithLabel.reached p ps)
    = InputWithLabel.rising false (map InputWithLabel.isFocused (p :: ps)).
Proof.
  destruct (InputWithLabel_mount p) as (Href & Hdeps & Hcalls).
  unfold InputWithLabel.reached.
  rewrite (InputWithLabel_run ps _ _ Href Hdeps), Hcalls. simpl.
  destruct (InputWithLabel.isFocused p); reflexivity.
Qed.

Lemma rising_constant (b : bool) (flags : list bool) :
  Forall (fun c => c = b) flags -> InputWithLabel.rising b flags = 0%nat.
Proof.
  induction 1 as [|c flags -> _ IH]; simpl; [reflexivity|].
  rewrite andb_negb_r, IH. reflexivity.
Qed.

(** X16: with [isFocused] the same on every render, as in [App] where it
    is always set, the input is focused once, after the first render, and
    no later render (a new value typed, a story dismissed) focuses it
    again; when it is never set the input is never focused. *)
Theorem focus_once_per_mount
    (b : bool) (p : InputWithLabel.props) (ps : list InputWithLabel.props) :
  Forall (fun q => InputWithLabel.isFocused q = b) (p :: ps) ->
  InputWithLabel.focus_calls (InputWithLabel.reached p ps) = (if b then 1 else 0)%nat
  /\ InputWithLabel.focus_calls (InputWithLabel.reached p ps)
     = InputWithLabel.focus_calls (InputWithLabel.mount p).
Proof.
  intros Hall. apply Forall_cons in Hall as [Hp Hps].
  destruct (InputWithLabel_mount p) as (Href & Hdeps & Hcalls).
  unfold InputWithLabel.reached.
  rewrite (InputWithLabel_run ps _ _ Href Hdeps), Hcalls, Hp.
  rewrite rising_constant; [destruct b; split; reflexivity|].
  apply Forall_fmap. exact Hps.
Qed.

Lemma focus_once_per_mount_witness :
  InputWithLabel.focus_calls
    (InputWithLabel.reached
       (InputWithLabel.mkProps "search" "React" None true)
       [InputWithLabel.mkProps "search" "Re" None true;
        InputWithLabel.mkProps "search" "Red" None true])
  = 1%nat.
Proof.
  apply (focus_once_per_mount true
           (InputWithLabel.mkProps "search" "React" None true)
           [InputWithLabel.mkProps "search" "Re" None true;
            InputWithLabel.mkProps "search" "Red" None true]).
  repeat constructor.
Defined.

(** * The page as the user drives it *)

Lemma List_lookup (L : list Item) (f : Item -> App.t -> App.t) (i : nat) :
  Row.List L f !! i
    = (fun item => [("item", Row.Story item); ("onRemoveItem", Row.Callback f)]) <$> (L !! i).
Proof. unfold Row.List. apply list_lookup_fmap. Qed.

(** X17: in src/App.jsx the Dismiss button does nothing to the state: the
    click handler throws before any updater is reached, so under every
    sequence of typing and clicking the stories stay the seed list and
    only the search term filters what is shown. *)
Theorem App_jsx_dismiss_is_inert (toLowerCase : string -> string) :
  (forall a i, UI.step toLowerCase Row.Item_App a (UI.Dismiss i) = a)
  /\ (forall ls es,
        App.stories (UI.run toLowerCase Row.Item_App (App.mount ls) es) = initialStories)
  /\ (forall ls es,
        App.view toLowerCase (UI.run toLowerCase Row.Item_App (App.mount ls) es)
          = searchedStories toLowerCase initialStories
              (App.searchTerm (UI.run toLowerCase Row.Item_App (App.mount ls) es))).
Proof.
  assert (Hstep : forall a i, UI.step toLowerCase Row.Item_App a (UI.Dismiss i) = a).
  { intros a i. unfold UI.step, UI.rows. rewrite List_lookup.
    destruct (App.view toLowerCase a !! i) as [x|]; reflexivity. }
  assert (Hrun : forall ls es,
            App.stories (UI.run toLowerCase Row.Item_App (App.mount ls) es) = initialStories).
  { intros ls es. unfold UI.run.
    assert (H0 : App.stories (App.mount ls) = initialStories) by reflexivity.
    revert H0. generalize (App.mount ls) as a.
    induction es as [|e es IH]; intros a Ha; [exact Ha|].
    apply (IH (UI.step toLowerCase Row.Item_App a e)).
    destruct e as [text|i]; [exact Ha | rewrite Hstep; exact Ha]. }
  split; [exact Hstep|]. split; [exact Hrun|].
  intros ls es. unfold App.view. rewrite Hrun. reflexivity.
Qed.

(** X18: in the second copy, activating Dismiss on the row at a position
    of the displayed list is [handleRemoveStory] of the story shown there;
    afterwards that story is no longer displayed and the other rows are
    the ones displayed before, in their order. *)
Theorem dismiss_removes_displayed_story
    (toLowerCase : string -> string) (ls : Storage) (es : list App.event)
    (i : nat) (x : Item) :
  App.view toLowerCase (App.reached ls es) !! i = Some x ->
  UI.step toLowerCase Row.Item_part_000 (App.reached ls es) (UI.Dismiss i)
    = App.handleRemoveStory x (App.reached ls es)
  /\ (x ∉ App.view toLowerCase
            (UI.step toLowerCase Row.Item_part_000 (App.reached ls es) (UI.Dismiss i)))
  /\ App.view toLowerCase
       (UI.step toLowerCase Row.Item_part_000 (App.reached ls es) (UI.Dismiss i))
     = newStories (App.view toLowerCase (App.reached ls es)) x.
Proof.
  intros Hi.
  assert (Hstep : UI.step toLowerCase Row.Item_part_000 (App.reached ls es) (UI.Dismiss i)
                  = App.handleRemoveStory x (App.reached ls es)).
  { unfold UI.step, UI.rows. rewrite List_lookup, Hi. reflexivity. }
  rewrite Hstep, view_handleRemoveStory. split; [reflexivity|]. split; [|reflexivity].
  unfold newStories. rewrite filter_elem_of, Z.eqb_refl. simpl. intros [_ H]. discriminate.
Qed.

Lemma dismiss_removes_displayed_story_witness :
  UI.step JSString.toLowerCase_ascii Row.Item_part_000
      (App.reached (mkStorage ∅ []) [App.Search "re"]) (UI.Dismiss 1)
    = App.handleRemoveStory
        (mkItem "Redux" "https://redux.js.org/" "Dan Abramov, Andrew Clark" 2 5 1)
        (App.reached (mkStorage ∅ []) [App.Search "re"]).
Proof.
  apply (dismiss_removes_displayed_story JSString.toLowerCase_ascii
           (mkStorage ∅ []) [App.Search "re"] 1
           (mkItem "Redux" "https://redux.js.org/" "Dan Abramov, Andrew Clark" 2 5 1)).
  vm_compute. reflexivity.
Defined.

(** X19: in the second copy, whatever the user types and clicks, the page
    is in a state the two handlers reach: a click on a displayed row is a
    removal, a click past the end of the list changes nothing. *)
Theorem part_000_page_runs_are_handler_runs
    (toLowerCase : string -> string) (ls : Storage) (es : list UI.event) :
  exists es', UI.run toLowerCase Row.Item_part_000 (App.mount ls) es = App.reached ls es'.
Proof.
  unfold UI.run.
  cut (forall es0, exists es',
         fold_left (UI.step toLowerCase Row.Item_part_000) es (App.reached ls es0)
           = App.reached ls es').
  { intros H. apply (H []). }
  induction es as [|e es IH]; intros es0; [exists es0; reflexivity|].
  simpl.
  assert (He : exists es1,
             UI.step toLowerCase Row.Item_part_000 (App.reached ls es0) e
               = App.reached ls es1).
  { destruct e as [text|i].
    - exists (es0 ++ [App.Search text]). unfold App.reached, App.run.
      rewrite fold_left_app. reflexivity.
    - unfold UI.step, UI.rows. rewrite List_lookup.
      destruct (App.view toLowerCase (App.reached ls es0) !! i) as [x|]; simpl.
      + exists (es0 ++ [App.Remove x]). unfold App.reached, App.run.
        rewrite fold_left_app. reflexivity.
      + exists es0. reflexivity. }
  destruct He as [es1 ->]. apply IH.
Qed.
